(** * platform_message.h (exp5438_2520): the platform message types

    The header declares three types: the union [message_header_t], the union
    [message_footer_t] and the struct [message_metadata_t].  Its text is
    embedded as a small syntax tree ([platform_message_h]); the C
    preprocessor, the layout of structs and unions and the access to a
    member of an object are functions on that tree. *)

From Stdlib Require Import Init.Byte.
From stdpp Require Import base list strings gmap.

#[local] Set Warnings "-register-all".

(** ** Syntax of the header *)

Definition ident := string.

(** A member declaration [ty name;]. *)
Record field := Fld { fld_type : ident; fld_name : ident }.

(** A member of a struct or union body once the preprocessor has run:
    a named member, or an anonymous union [union { ... };]. *)
Inductive member :=
| MField (f : field)
| MUnion (alts : list field).

(** A member as the source text has it: possibly under [#ifdef X ... #endif]. *)
Inductive src_member :=
| SMember (m : member)
| SIfdef (macro : ident) (body : list src_member).

Inductive su := Struct | Union.

(** [typedef struct-or-union tag { body } name;] *)
Record typedef (M : Type) := Typedef {
  td_su : su;
  td_tag : ident;
  td_body : list M;
  td_name : ident
}.
Arguments Typedef {M} _ _ _ _.
Arguments td_su {M} _.
Arguments td_tag {M} _.
Arguments td_body {M} _.
Arguments td_name {M} _.

(** [#include <file>] or [#include "file"]. *)
Inductive include_ref :=
| IncSys (file : string)
| IncLocal (file : string).

(** What can stand at file scope.  The header uses the first four only; a
    function definition and an object definition are in the grammar so that
    their absence from the header is a property of the header. *)
Inductive item :=
| IIfndef (macro : ident) (body : list item)
| IDefine (macro : ident)
| IInclude (h : include_ref)
| ITypedef (td : typedef src_member)
| IFunction (name : ident)
| IObject (ty name : ident).

Definition PLATFORM_MESSAGE_H : ident := "PLATFORM_MESSAGE_H".
Definition LOW_POWER_LISTENING : ident := "LOW_POWER_LISTENING".
Definition PACKET_LINK : ident := "PACKET_LINK".

(** Lines 54-57. *)
Definition message_header_src : typedef src_member :=
  Typedef Union "message_header"
    [ SMember (MField (Fld "cc2520packet_header_t" "cc2520"));
      SMember (MField (Fld "serial_header_t" "serial")) ]
    "message_header_t".

(** Lines 59-61. *)
Definition message_footer_src : typedef src_member :=
  Typedef Union "message_footer"
    [ SMember (MField (Fld "cc2520packet_footer_t" "cc2520")) ]
    "message_footer_t".

(** Lines 63-81. *)
Definition message_metadata_src : typedef src_member :=
  Typedef Struct "message_metadata"
    [ SMember (MUnion [ Fld "cc2520_metadata_t" "cc2520_meta";
                        Fld "serial_metadata_t" "serial_meta" ]);
      SIfdef LOW_POWER_LISTENING
        [ SMember (MField (Fld "lpl_metadata_t" "lpl_meta")) ];
      SMember (MField (Fld "timestamp_metadata_t" "ts_meta"));
      SIfdef PACKET_LINK
        [ SMember (MField (Fld "link_metadata_t" "link_meta")) ];
      SMember (MField (Fld "flags_metadata_t" "flags_meta")) ]
    "message_metadata_t".

(** Lines 48-83: the whole file. *)
Definition platform_message_h : list item :=
  [ IIfndef PLATFORM_MESSAGE_H
      [ IDefine PLATFORM_MESSAGE_H;
        IInclude (IncSys "Serial.h");
        IInclude (IncLocal "CC2520Radio.h");
        ITypedef message_header_src;
        ITypedef message_footer_src;
        ITypedef message_metadata_src ] ].

(** ** The preprocessor *)

(** What a translation unit holds after preprocessing. *)
Inductive decl :=
| DTypedef (td : typedef member)
| DFunction (name : ident)
| DObject (ty name : ident).

(** Conditional members of a struct or union body, under the macros [D]. *)
Fixpoint pp_member (D : gset ident) (m : src_member) : list member :=
  match m with
  | SMember m => [m]
  | SIfdef x body =>
      if decide (x ∈ D) then flat_map (pp_member D) body else []
  end.

Definition pp_body (D : gset ident) (ms : list src_member) : list member :=
  flat_map (pp_member D) ms.

Definition pp_typedef (D : gset ident) (td : typedef src_member)
  : typedef member :=
  Typedef (td_su td) (td_tag td) (pp_body D (td_body td)) (td_name td).

(** The typedef named [n] among the declarations, if any. *)
Fixpoint find_typedef (n : ident) (ds : list decl) : option (typedef member) :=
  match ds with
  | [] => None
  | DTypedef td :: r =>
      if decide (td_name td = n) then Some td else find_typedef n r
  | _ :: r => find_typedef n r
  end.

Section Preprocessor.

(** The headers [Serial.h] and [CC2520Radio.h] are not part of this file.
    What they do to the set of defined macros is a parameter; the types
    they declare enter through [type_info_of] below. *)
Variable include_macros : include_ref → gset ident → gset ident.

(** One item, from the macros [D]: the macros afterwards and the
    declarations produced. *)
Fixpoint pp_item (i : item) (D : gset ident) : gset ident * list decl :=
  match i with
  | IIfndef x body =>
      if decide (x ∈ D) then (D, [])
      else
        (fix pp_seq (l : list item) (D : gset ident) :=
           match l with
           | [] => (D, [])
           | i :: r =>
               let '(D1, o1) := pp_item i D in
               let '(D2, o2) := pp_seq r D1 in
               (D2, (o1 ++ o2)%list)
           end) body D
  | IDefine x => ({[x]} ∪ D, [])
  | IInclude h => (include_macros h D, [])
  | ITypedef td => (D, [DTypedef (pp_typedef D td)])
  | IFunction f => (D, [DFunction f])
  | IObject ty x => (D, [DObject ty x])
  end.

Fixpoint pp_items (l : list item) (D : gset ident) : gset ident * list decl :=
  match l with
  | [] => (D, [])
  | i :: r =>
      let '(D1, o1) := pp_item i D in
      let '(D2, o2) := pp_items r D1 in
      (D2, (o1 ++ o2)%list)
  end.

(** The macros in force where the three typedefs stand (line 54 on), when
    the file is entered with the macros [D]. *)
Definition macros_at_typedefs (D : gset ident) : gset ident :=
  include_macros (IncLocal "CC2520Radio.h")
    (include_macros (IncSys "Serial.h") ({[PLATFORM_MESSAGE_H]} ∪ D)).

End Preprocessor.

(** ** Layout of structs and unions *)

(** Size and alignment of a type declared by a collaborator header.  The
    alignment is a power of two, given by its exponent. *)
Record type_info := TypeInfo { ti_size : nat; ti_align_log2 : nat }.

(** The least multiple of [a] that is at least [n]. *)
Definition align_up (n a : nat) : nat := (n + (a - 1)) / a * a.

(** Reading [n] bytes at offset [off] of an object, and overwriting the
    bytes from offset [off] with [v]. *)
Definition load_bytes (o : list byte) (off n : nat) : list byte :=
  take n (drop off o).

Definition store_bytes (o : list byte) (off : nat) (v : list byte)
  : list byte :=
  take off o ++ v ++ drop (off + length v) o.

Section Layout.

(** [cc2520packet_header_t], [serial_header_t] and the other member types
    are declared in [Serial.h] and [CC2520Radio.h], not here. *)
Variable type_info_of : ident → type_info.

Definition sizeof_type (ty : ident) : nat := ti_size (type_info_of ty).
Definition alignof_type (ty : ident) : nat :=
  2 ^ ti_align_log2 (type_info_of ty).

Definition sizeof_field (f : field) : nat := sizeof_type (fld_type f).
Definition alignof_field (f : field) : nat := alignof_type (fld_type f).

Definition alignof_member (m : member) : nat :=
  match m with
  | MField f => alignof_field f
  | MUnion alts => foldr Nat.max 1 (alignof_field <$> alts)
  end.

(** A union is as large as its largest member, rounded up to its
    alignment. *)
Definition sizeof_member (m : member) : nat :=
  match m with
  | MField f => sizeof_field f
  | MUnion alts =>
      align_up (max_list (sizeof_field <$> alts))
               (foldr Nat.max 1 (alignof_field <$> alts))
  end.

Definition alignof_body (ms : list member) : nat :=
  foldr Nat.max 1 (alignof_member <$> ms).

Definition sizeof_union (ms : list member) : nat :=
  align_up (max_list (sizeof_member <$> ms)) (alignof_body ms).

(** The members of a struct follow one another, each at the next offset
    that its alignment allows; [struct_end off ms] is the offset after the
    last of [ms] when the first may start at [off]. *)
Fixpoint struct_end (off : nat) (ms : list member) : nat :=
  match ms with
  | [] => off
  | m :: r =>
      struct_end (align_up off (alignof_member m) + sizeof_member m) r
  end.

Definition sizeof_struct (ms : list member) : nat :=
  align_up (struct_end 0 ms) (alignof_body ms).

Definition sizeof_typedef (td : typedef member) : nat :=
  match td_su td with
  | Struct => sizeof_struct (td_body td)
  | Union => sizeof_union (td_body td)
  end.

(** ** Members by name *)

(** The field that the name [x] designates in the member [m]: [m] itself,
    or an alternative of an anonymous union, whose members are named as if
    they were members of the enclosing struct. *)
Definition find_in_member (x : ident) (m : member) : option field :=
  match m with
  | MField f => if decide (fld_name f = x) then Some f else None
  | MUnion alts => find (λ f, bool_decide (fld_name f = x)) alts
  end.

Fixpoint locate_struct (off : nat) (ms : list member) (x : ident)
  : option (nat * field) :=
  match ms with
  | [] => None
  | m :: r =>
      let o := align_up off (alignof_member m) in
      match find_in_member x m with
      | Some f => Some (o, f)
      | None => locate_struct (o + sizeof_member m) r x
      end
  end.

(** Every member of a union starts at offset 0. *)
Fixpoint locate_union (ms : list member) (x : ident)
  : option (nat * field) :=
  match ms with
  | [] => None
  | m :: r =>
      match find_in_member x m with
      | Some f => Some (0, f)
      | None => locate_union r x
      end
  end.

(** Offset and declaration of the member [x] of the type [td]. *)
Definition locate (td : typedef member) (x : ident) : option (nat * field) :=
  match td_su td with
  | Struct => locate_struct 0 (td_body td) x
  | Union => locate_union (td_body td) x
  end.

(** ** Objects and member access *)

(** An object of type [td] is [sizeof_typedef td] bytes; a value of a
    member type is the bytes of that member. *)
Definition object_of (td : typedef member) (o : list byte) : Prop :=
  length o = sizeof_typedef td.

(** [o.x] *)
Definition load_member (td : typedef member) (x : ident) (o : list byte)
  : option (list byte) :=
  '(off, f) ← locate td x;
  if decide (off + sizeof_field f ≤ length o)
  then Some (load_bytes o off (sizeof_field f))
  else None.

(** [o.x = v] *)
Definition store_member (td : typedef member) (x : ident) (v : list byte)
    (o : list byte) : option (list byte) :=
  '(off, f) ← locate td x;
  if decide (length v = sizeof_field f ∧ off + sizeof_field f ≤ length o)
  then Some (store_bytes o off v)
  else None.

End Layout.

(** ** What the header declares *)

(** The names by which the members of a struct or union body are reached. *)
Definition member_names (ms : list member) : list ident :=
  flat_map (λ m, match m with
                 | MField f => [fld_name f]
                 | MUnion alts => fld_name <$> alts
                 end) ms.

(** The declarations that a translation unit gets from including the header
    when the macros [D] are defined, and the typedef it gets under a name. *)
Definition declarations (inc : include_ref → gset ident → gset ident)
    (D : gset ident) : list decl :=
  (pp_items inc platform_message_h D).2.

Definition exported (inc : include_ref → gset ident → gset ident)
    (D : gset ident) (n : ident) : option (typedef member) :=
  find_typedef n (declarations inc D).

Definition metadata_declares (inc : include_ref → gset ident → gset ident)
    (D : gset ident) (x : ident) : bool :=
  match exported inc D "message_metadata_t" with
  | Some td => bool_decide (x ∈ member_names (td_body td))
  | None => false
  end.

(** The three types as the specification describes them. *)
Definition union_message_header : typedef member :=
  Typedef Union "message_header"
    [ MField (Fld "cc2520packet_header_t" "cc2520");
      MField (Fld "serial_header_t" "serial") ]
    "message_header_t".

Definition union_message_footer : typedef member :=
  Typedef Union "message_footer"
    [ MField (Fld "cc2520packet_footer_t" "cc2520") ]
    "message_footer_t".

Definition metadata_union : member :=
  MUnion [ Fld "cc2520_metadata_t" "cc2520_meta";
           Fld "serial_metadata_t" "serial_meta" ].

Definition when (b : bool) (m : member) : list member :=
  if b then [m] else [].

Definition metadata_composition (lpl link : bool) : list member :=
  [metadata_union]
  ++ when lpl (MField (Fld "lpl_metadata_t" "lpl_meta"))
  ++ [MField (Fld "timestamp_metadata_t" "ts_meta")]
  ++ when link (MField (Fld "link_metadata_t" "link_meta"))
  ++ [MField (Fld "flags_metadata_t" "flags_meta")].

Definition struct_message_metadata (lpl link : bool) : typedef member :=
  Typedef Struct "message_metadata" (metadata_composition lpl link)
    "message_metadata_t".

(** The four member names that the specification calls optional. *)
Definition feature_members : list ident :=
  ["lpl_meta"; "ts_meta"; "link_meta"; "flags_meta"].

(** Items of a file, conditional groups opened up. *)
Fixpoint flatten_item (i : item) : list item :=
  match i with
  | IIfndef x body => IIfndef x [] :: flat_map flatten_item body
  | _ => [i]
  end.

Definition flatten (l : list item) : list item := flat_map flatten_item l.

Definition is_directive (i : item) : bool :=
  match i with
  | IIfndef _ _ | IDefine _ | IInclude _ => true
  | _ => false
  end.

Definition is_typedef (i : item) : bool :=
  match i with ITypedef _ => true | _ => false end.

Definition is_function (i : item) : bool :=
  match i with IFunction _ => true | _ => false end.

Definition is_object (i : item) : bool :=
  match i with IObject _ _ => true | _ => false end.

Definition decl_is_typedef (d : decl) : bool :=
  match d with DTypedef _ => true | _ => false end.

(** An include file that defines no macro: the simplest collaborator. *)
Definition inc_none : include_ref → gset ident → gset ident := λ _ D, D.

(** The names of the two overlaid members of [message_metadata_t], and of
    the members declared after the anonymous union. *)
Definition overlaid_members : list ident := ["cc2520_meta"; "serial_meta"].
Definition following_members : list ident :=
  ["lpl_meta"; "ts_meta"; "link_meta"; "flags_meta"].

(** The union members: the exported type, the member and its type. *)
Definition union_members : list (ident * ident * ident) :=
  [ ("message_header_t", "cc2520", "cc2520packet_header_t");
    ("message_header_t", "serial", "serial_header_t");
    ("message_footer_t", "cc2520", "cc2520packet_footer_t");
    ("message_metadata_t", "cc2520_meta", "cc2520_metadata_t");
    ("message_metadata_t", "serial_meta", "serial_metadata_t") ].

(** Sizes and alignments for the collaborator types, for concrete
    instances of the statements below. *)
Definition sample_types (ty : ident) : type_info :=
  if decide (ty = "cc2520packet_header_t") then TypeInfo 11 0 else
  if decide (ty = "serial_header_t") then TypeInfo 7 0 else
  if decide (ty = "cc2520packet_footer_t") then TypeInfo 0 0 else
  if decide (ty = "cc2520_metadata_t") then TypeInfo 3 0 else
  if decide (ty = "serial_metadata_t") then TypeInfo 1 0 else
  if decide (ty = "lpl_metadata_t") then TypeInfo 2 1 else
  if decide (ty = "timestamp_metadata_t") then TypeInfo 4 1 else
  if decide (ty = "link_metadata_t") then TypeInfo 4 1 else
  if decide (ty = "flags_metadata_t") then TypeInfo 1 0 else
  TypeInfo 1 0.

(** Closed decidable facts, such as that a macro is not in a given set. *)
Ltac by_evaluation := compute_done.

(** The name a declaration introduces. *)
Definition decl_name (d : decl) : ident :=
  match d with
  | DTypedef td => td_name td
  | DFunction f => f
  | DObject _ x => x
  end.

(** The struct or union tag a declaration introduces, if any. *)
Definition decl_tag (d : decl) : option ident :=
  match d with
  | DTypedef td => Some (td_tag td)
  | _ => None
  end.

(** An include file that defines both feature flags. *)
Definition inc_features : include_ref → gset ident → gset ident :=
  λ _ D, {[LOW_POWER_LISTENING; PACKET_LINK]} ∪ D.


(** One layout is within another: the type is no larger, and each of its
    members is a member of the other, of the same declaration, at an offset
    that is no smaller. *)
Definition layout_le (ti : ident → type_info) (td td' : typedef member)
  : Prop :=
  sizeof_typedef ti td ≤ sizeof_typedef ti td' ∧
  ∀ x off f, locate ti td x = Some (off, f) →
    ∃ off', locate ti td' x = Some (off', f) ∧ off ≤ off'.

(** Byte-aligned collaborator types: the sizes of [sample_types], every
    alignment 1. *)
Definition packed_types (ty : ident) : type_info :=
  TypeInfo (ti_size (sample_types ty)) 0.

(** * Properties *)

(** ** The preprocessor on this header *)

Lemma pp_items_app inc l1 l2 D :
  pp_items inc (l1 ++ l2) D =
  let '(D1, o1) := pp_items inc l1 D in
  let '(D2, o2) := pp_items inc l2 D1 in
  (D2, o1 ++ o2).
Proof.
  revert D. induction l1 as [|i l1 IH]; intros D; simpl.
  - by destruct (pp_items inc l2 D).
  - destruct (pp_item inc i D) as [D1 o1]. rewrite IH.
    destruct (pp_items inc l1 D1) as [D2 o2].
    destruct (pp_items inc l2 D2) as [D3 o3]. by rewrite app_assoc.
Qed.

Lemma pp_message_header E :
  pp_typedef E message_header_src = union_message_header.
Proof. reflexivity. Qed.

Lemma pp_message_footer E :
  pp_typedef E message_footer_src = union_message_footer.
Proof. reflexivity. Qed.

Lemma pp_message_metadata E :
  pp_typedef E message_metadata_src =
  struct_message_metadata (bool_decide (LOW_POWER_LISTENING ∈ E))
                          (bool_decide (PACKET_LINK ∈ E)).
Proof.
  unfold pp_typedef, struct_message_metadata, metadata_composition,
    message_metadata_src, pp_body; simpl.
  do 2 case_bool_decide; repeat case_decide; done.
Qed.

(** The header entered with its guard undefined: the guard is defined, the
    two includes are processed and the three typedefs are declared. *)
Lemma pp_header_fresh inc D :
  PLATFORM_MESSAGE_H ∉ D →
  pp_items inc platform_message_h D =
  (macros_at_typedefs inc D,
   [ DTypedef union_message_header;
     DTypedef union_message_footer;
     DTypedef (struct_message_metadata
       (bool_decide (LOW_POWER_LISTENING ∈ macros_at_typedefs inc D))
       (bool_decide (PACKET_LINK ∈ macros_at_typedefs inc D))) ]).
Proof.
  intros HD. unfold platform_message_h. cbn [pp_items pp_item].
  rewrite decide_False by done. cbn [app].
  by rewrite pp_message_header, pp_message_footer, pp_message_metadata.
Qed.

(** The header entered with its guard defined: nothing happens. *)
Lemma pp_header_guarded inc D :
  PLATFORM_MESSAGE_H ∈ D →
  pp_items inc platform_message_h D = (D, []).
Proof.
  intros HD. unfold platform_message_h. cbn [pp_items pp_item].
  by rewrite decide_True.
Qed.

Lemma exported_header inc D :
  PLATFORM_MESSAGE_H ∉ D →
  exported inc D "message_header_t" = Some union_message_header.
Proof.
  intros HD. unfold exported, declarations. by rewrite pp_header_fresh.
Qed.

Lemma exported_footer inc D :
  PLATFORM_MESSAGE_H ∉ D →
  exported inc D "message_footer_t" = Some union_message_footer.
Proof.
  intros HD. unfold exported, declarations. by rewrite pp_header_fresh.
Qed.

Lemma exported_metadata inc D :
  PLATFORM_MESSAGE_H ∉ D →
  exported inc D "message_metadata_t" =
  Some (struct_message_metadata
    (bool_decide (LOW_POWER_LISTENING ∈ macros_at_typedefs inc D))
    (bool_decide (PACKET_LINK ∈ macros_at_typedefs inc D))).
Proof.
  intros HD. unfold exported, declarations. by rewrite pp_header_fresh.
Qed.

(** ** Alignment and sizes *)

Lemma align_up_ge n a : 0 < a → n ≤ align_up n a.
Proof.
  intros Ha. unfold align_up.
  pose proof (Nat.div_mod_eq (n + (a - 1)) a) as E.
  pose proof (Nat.mod_upper_bound (n + (a - 1)) a) as U. nia.
Qed.

Lemma align_up_lt n a : 0 < a → align_up n a < n + a.
Proof.
  intros Ha. unfold align_up.
  pose proof (Nat.div_mod_eq (n + (a - 1)) a) as E. nia.
Qed.

Lemma align_up_divide n a : (a | align_up n a).
Proof. exists ((n + (a - 1)) / a). reflexivity. Qed.

Lemma align_up_aligned n a : 0 < a → (a | n) → align_up n a = n.
Proof.
  intros Ha [k ->]. unfold align_up.
  replace (k * a + (a - 1)) with ((a - 1) + k * a) by lia.
  rewrite Nat.div_add by lia. rewrite Nat.div_small by lia. lia.
Qed.

Lemma foldr_max_ge (b : nat) (l : list nat) : b ≤ foldr Nat.max b l.
Proof. induction l; simpl; lia. Qed.

Section LayoutFacts.

Variable ti : ident → type_info.

Lemma alignof_type_pos ty : 0 < alignof_type ti ty.
Proof.
  unfold alignof_type.
  pose proof (Nat.pow_nonzero 2 (ti_align_log2 (ti ty))). lia.
Qed.

Lemma alignof_member_pos m : 0 < alignof_member ti m.
Proof.
  destruct m as [f|alts]; simpl.
  - apply alignof_type_pos.
  - pose proof (foldr_max_ge 1 (alignof_field ti <$> alts)). lia.
Qed.

Lemma alignof_body_pos ms : 0 < alignof_body ti ms.
Proof.
  unfold alignof_body.
  pose proof (foldr_max_ge 1 (alignof_member ti <$> ms)). lia.
Qed.

(** A union is at least as large as each of its members. *)
Lemma sizeof_union_ge ms m :
  m ∈ ms → sizeof_member ti m ≤ sizeof_union ti ms.
Proof.
  intros Hm. unfold sizeof_union.
  etrans; [|apply align_up_ge, alignof_body_pos].
  apply max_list_elem_of_le, list_elem_of_fmap. eauto.
Qed.

(** The same for the alternatives of an anonymous union. *)
Lemma sizeof_anonymous_union_ge alts f :
  f ∈ alts → sizeof_field ti f ≤ sizeof_member ti (MUnion alts).
Proof.
  intros Hf. simpl.
  etrans; [|apply align_up_ge].
  - apply max_list_elem_of_le, list_elem_of_fmap. eauto.
  - pose proof (foldr_max_ge 1 (alignof_field ti <$> alts)). lia.
Qed.

Lemma struct_end_ge off ms :
  off + sum_list (sizeof_member ti <$> ms) ≤ struct_end ti off ms.
Proof.
  revert off. induction ms as [|m r IH]; intros off; simpl; [lia|].
  specialize (IH (align_up off (alignof_member ti m) + sizeof_member ti m)).
  pose proof (align_up_ge off _ (alignof_member_pos m)).
  change (list_fmap member nat (sizeof_member ti) r)
    with (sizeof_member ti <$> r). lia.
Qed.

(** A struct is at least as large as its members together. *)
Lemma sizeof_struct_ge ms :
  sum_list (sizeof_member ti <$> ms) ≤ sizeof_struct ti ms.
Proof.
  unfold sizeof_struct.
  pose proof (struct_end_ge 0 ms).
  pose proof (align_up_ge (struct_end ti 0 ms) _ (alignof_body_pos ms)).
  lia.
Qed.

(** ** Where members lie *)

Lemma find_in_member_elem x m f :
  find_in_member x m = Some f →
  fld_name f = x ∧
  match m with MField g => g = f | MUnion alts => f ∈ alts end.
Proof.
  destruct m as [g|alts]; simpl.
  - case_decide; [|done]. by intros [= <-].
  - intros H. apply find_some in H as [H1 H2].
    apply bool_decide_eq_true in H2. split; [done|].
    by apply list_elem_of_In.
Qed.

Lemma find_in_member_size x m f :
  find_in_member x m = Some f → sizeof_field ti f ≤ sizeof_member ti m.
Proof.
  intros H. apply find_in_member_elem in H as [_ H].
  destruct m as [g|alts].
  - by subst.
  - by apply sizeof_anonymous_union_ge.
Qed.

Lemma locate_struct_bounds off ms x o f :
  locate_struct ti off ms x = Some (o, f) →
  off ≤ o ∧ o + sizeof_field ti f ≤ struct_end ti off ms.
Proof.
  revert off. induction ms as [|m r IH]; intros off; simpl; [done|].
  pose proof (align_up_ge off _ (alignof_member_pos m)) as Ha.
  destruct (find_in_member x m) as [g|] eqn:Hx.
  - intros [= <- <-]. split; [done|].
    pose proof (find_in_member_size _ _ _ Hx).
    pose proof (struct_end_ge
      (align_up off (alignof_member ti m) + sizeof_member ti m) r). lia.
  - intros H. apply IH in H. lia.
Qed.

Lemma locate_union_bounds ms x o f :
  locate_union ms x = Some (o, f) →
  o = 0 ∧ sizeof_field ti f ≤ max_list (sizeof_member ti <$> ms).
Proof.
  induction ms as [|m r IH]; [done|].
  rewrite fmap_cons. simpl.
  destruct (find_in_member x m) as [g|] eqn:Hx.
  - intros [= <- <-]. split; [done|].
    pose proof (find_in_member_size _ _ _ Hx). lia.
  - intros H. apply IH in H. lia.
Qed.

(** A member lies inside the object. *)
Lemma locate_bounds td x o f :
  locate ti td x = Some (o, f) →
  o + sizeof_field ti f ≤ sizeof_typedef ti td.
Proof.
  unfold locate, sizeof_typedef. destruct (td_su td); intros H.
  - apply locate_struct_bounds in H. unfold sizeof_struct.
    pose proof (align_up_ge (struct_end ti 0 (td_body td)) _
                  (alignof_body_pos (td_body td))). lia.
  - apply locate_union_bounds in H as [-> H]. unfold sizeof_union.
    pose proof (align_up_ge (max_list (sizeof_member ti <$> td_body td)) _
                  (alignof_body_pos (td_body td))). lia.
Qed.

(** In a struct, a member reached through the first declaration ends
    before any member reached through a later one begins. *)
Lemma locate_struct_head_before off m r x y fx oy fy :
  find_in_member x m = Some fx →
  find_in_member y m = None →
  locate_struct ti off (m :: r) y = Some (oy, fy) →
  locate_struct ti off (m :: r) x =
    Some (align_up off (alignof_member ti m), fx) ∧
  align_up off (alignof_member ti m) + sizeof_field ti fx ≤ oy.
Proof.
  intros Hx Hy. simpl. rewrite Hx, Hy. intros H. split; [done|].
  apply locate_struct_bounds in H.
  pose proof (find_in_member_size _ _ _ Hx). lia.
Qed.

End LayoutFacts.

(** ** Bytes of an object *)

Lemma length_store_bytes o off v :
  off + length v ≤ length o → length (store_bytes o off v) = length o.
Proof.
  intros H. unfold store_bytes.
  rewrite !length_app, length_take, length_drop. lia.
Qed.

Lemma load_store_bytes_same o off v :
  off + length v ≤ length o →
  load_bytes (store_bytes o off v) off (length v) = v.
Proof.
  intros H. unfold load_bytes, store_bytes.
  rewrite drop_app_length' by (rewrite length_take; lia).
  by rewrite take_app_length.
Qed.

Lemma load_store_bytes_before o off v off' n :
  off + length v ≤ length o → off' + n ≤ off →
  load_bytes (store_bytes o off v) off' n = load_bytes o off' n.
Proof.
  intros H1 H2. unfold load_bytes, store_bytes.
  rewrite drop_app_le by (rewrite length_take; lia).
  rewrite take_app_le by (rewrite length_drop, length_take; lia).
  rewrite !take_drop_commute, take_take. do 2 f_equal. lia.
Qed.

Lemma load_store_bytes_after o off v off' n :
  off + length v ≤ length o → off + length v ≤ off' →
  load_bytes (store_bytes o off v) off' n = load_bytes o off' n.
Proof.
  intros H1 H2. unfold load_bytes, store_bytes.
  rewrite drop_app_ge by (rewrite length_take; lia).
  rewrite drop_app_ge by (rewrite length_take; lia).
  rewrite drop_drop, length_take. do 2 f_equal. lia.
Qed.

(** ** Access to members *)

Section AccessFacts.

Variable ti : ident → type_info.

(** A store of a value of the member's size into an object of the type
    succeeds. *)
Lemma store_member_Some td x v o off f :
  object_of ti td o →
  locate ti td x = Some (off, f) →
  length v = sizeof_field ti f →
  store_member ti td x v o = Some (store_bytes o off v).
Proof.
  unfold object_of, store_member. intros Ho Hx Hv. rewrite Hx. simpl.
  apply locate_bounds in Hx. rewrite decide_True; [done|]. lia.
Qed.

Lemma store_member_inv td x v o o' :
  store_member ti td x v o = Some o' →
  ∃ off f, locate ti td x = Some (off, f) ∧ length v = sizeof_field ti f ∧
           off + length v ≤ length o ∧ o' = store_bytes o off v.
Proof.
  unfold store_member. destruct (locate ti td x) as [[off f]|]; [|done].
  simpl. case_decide as H; [|done]. intros [= <-].
  exists off, f. repeat split; lia.
Qed.

(** A store leaves the object an object of its type. *)
Lemma store_member_object td x v o o' :
  object_of ti td o → store_member ti td x v o = Some o' →
  object_of ti td o'.
Proof.
  unfold object_of. intros Ho H.
  apply store_member_inv in H as (off & f & _ & _ & Hb & ->).
  by rewrite length_store_bytes.
Qed.

(** Reading the member just written gives the value written. *)
Lemma load_store_member td x v o o' :
  store_member ti td x v o = Some o' → load_member ti td x o' = Some v.
Proof.
  intros H. apply store_member_inv in H as (off & f & Hx & Hv & Hb & ->).
  unfold load_member. rewrite Hx. simpl.
  rewrite length_store_bytes by done.
  rewrite decide_True by lia. rewrite <- Hv.
  by rewrite load_store_bytes_same.
Qed.

(** Reading a member that shares no byte with the member written gives
    what it gave before. *)
Lemma load_store_member_apart td x y v o o' ox fx oy fy :
  locate ti td x = Some (ox, fx) →
  locate ti td y = Some (oy, fy) →
  ox + sizeof_field ti fx ≤ oy ∨ oy + sizeof_field ti fy ≤ ox →
  store_member ti td x v o = Some o' →
  load_member ti td y o' = load_member ti td y o.
Proof.
  intros Hx Hy Hd H.
  apply store_member_inv in H as (off & f & Hx' & Hv & Hb & ->).
  rewrite Hx in Hx'. injection Hx' as <- <-.
  unfold load_member. rewrite Hy. simpl.
  rewrite length_store_bytes by done.
  case_decide; [|done]. f_equal.
  destruct Hd.
  - apply load_store_bytes_after; lia.
  - apply load_store_bytes_before; lia.
Qed.

Lemma load_member_None td y o :
  locate ti td y = None → load_member ti td y o = None.
Proof. unfold load_member. by intros ->. Qed.

Lemma store_member_None td y v o :
  locate ti td y = None → store_member ti td y v o = None.
Proof. unfold store_member. by intros ->. Qed.

(** In a struct, writing a member reached through the first declaration
    leaves the members reached through later declarations as they were,
    and the other way round. *)
Lemma store_head_frame tag name m r x y v o o' :
  is_Some (find_in_member x m) →
  find_in_member y m = None →
  store_member ti (Typedef Struct tag (m :: r) name) x v o = Some o' →
  load_member ti (Typedef Struct tag (m :: r) name) y o' =
  load_member ti (Typedef Struct tag (m :: r) name) y o.
Proof.
  intros [fx Hx] Hy H.
  destruct (locate ti (Typedef Struct tag (m :: r) name) y)
    as [[oy fy]|] eqn:Ly.
  - destruct (locate_struct_head_before ti 0 m r x y fx oy fy Hx Hy Ly)
      as [Lx Hle].
    eapply load_store_member_apart; [exact Lx|exact Ly| |exact H].
    by left.
  - by rewrite !load_member_None.
Qed.

Lemma store_tail_frame tag name m r x y v o o' :
  is_Some (find_in_member x m) →
  find_in_member y m = None →
  store_member ti (Typedef Struct tag (m :: r) name) y v o = Some o' →
  load_member ti (Typedef Struct tag (m :: r) name) x o' =
  load_member ti (Typedef Struct tag (m :: r) name) x o.
Proof.
  intros [fx Hx] Hy H.
  destruct (locate ti (Typedef Struct tag (m :: r) name) y)
    as [[oy fy]|] eqn:Ly.
  - destruct (locate_struct_head_before ti 0 m r x y fx oy fy Hx Hy Ly)
      as [Lx Hle].
    eapply load_store_member_apart; [exact Ly|exact Lx| |exact H].
    by right.
  - by rewrite store_member_None in H.
Qed.

End AccessFacts.

(** * The claims *)

(** ** C1 *)

(** C1: [message_metadata_t] is a struct made of, in this order: the
    anonymous union of [cc2520_meta] and [serial_meta]; [lpl_meta] exactly
    when LOW_POWER_LISTENING is defined; [ts_meta]; [link_meta] exactly when
    PACKET_LINK is defined; [flags_meta].  This holds whatever macros are
    defined when the header is entered (its guard apart), so for each of the
    four combinations of the two flags. *)
Theorem C1_metadata_composition inc D :
  PLATFORM_MESSAGE_H ∉ D →
  exported inc D "message_metadata_t" =
  Some (Typedef Struct "message_metadata"
    ([ MUnion [ Fld "cc2520_metadata_t" "cc2520_meta";
                Fld "serial_metadata_t" "serial_meta" ] ]
     ++ (if bool_decide (LOW_POWER_LISTENING ∈ macros_at_typedefs inc D)
         then [ MField (Fld "lpl_metadata_t" "lpl_meta") ] else [])
     ++ [ MField (Fld "timestamp_metadata_t" "ts_meta") ]
     ++ (if bool_decide (PACKET_LINK ∈ macros_at_typedefs inc D)
         then [ MField (Fld "link_metadata_t" "link_meta") ] else [])
     ++ [ MField (Fld "flags_metadata_t" "flags_meta") ])
    "message_metadata_t").
Proof. intros HD. by rewrite exported_metadata. Qed.

Lemma C1_metadata_composition_witness :
  (PLATFORM_MESSAGE_H ∉ ({[LOW_POWER_LISTENING]} : gset ident)) ∧
  exported inc_none {[LOW_POWER_LISTENING]} "message_metadata_t" =
  Some (Typedef Struct "message_metadata"
    [ MUnion [ Fld "cc2520_metadata_t" "cc2520_meta";
               Fld "serial_metadata_t" "serial_meta" ];
      MField (Fld "lpl_metadata_t" "lpl_meta");
      MField (Fld "timestamp_metadata_t" "ts_meta");
      MField (Fld "flags_metadata_t" "flags_meta") ]
    "message_metadata_t").
Proof.
  split; [by_evaluation|].
  rewrite (C1_metadata_composition inc_none {[LOW_POWER_LISTENING]});
    [reflexivity | by_evaluation].
Defined.

(** ** C2 *)

(** C2, as stated, fails: with no macro defined at all, [ts_meta] and
    [flags_meta] are members of the struct, so no flag removes them by
    being undefined. *)
Lemma C2_ungated_counterexample :
  ¬ (∀ x, x ∈ feature_members →
       ∃ flag : ident, ∀ D : gset ident,
         flag ∉ D → metadata_declares inc_none D x = false).
Proof.
  intros H. destruct (H "ts_meta") as [flag Hflag]; [by_evaluation|].
  specialize (Hflag ∅ (not_elem_of_empty flag)).
  vm_compute in Hflag. discriminate.
Qed.

(** C2, amended: of the four feature members, [lpl_meta] and [link_meta]
    are gated, each a member exactly when its flag (LOW_POWER_LISTENING,
    PACKET_LINK) is defined where the struct is declared; [ts_meta] and
    [flags_meta] are members whatever is defined. *)
Theorem C2_gated_members inc D :
  PLATFORM_MESSAGE_H ∉ D →
  metadata_declares inc D "lpl_meta" =
    bool_decide (LOW_POWER_LISTENING ∈ macros_at_typedefs inc D) ∧
  metadata_declares inc D "link_meta" =
    bool_decide (PACKET_LINK ∈ macros_at_typedefs inc D) ∧
  metadata_declares inc D "ts_meta" = true ∧
  metadata_declares inc D "flags_meta" = true.
Proof.
  intros HD. unfold metadata_declares. rewrite exported_metadata by done.
  destruct (bool_decide (LOW_POWER_LISTENING ∈ macros_at_typedefs inc D)),
    (bool_decide (PACKET_LINK ∈ macros_at_typedefs inc D));
    by vm_compute.
Qed.

Lemma C2_gated_members_witness :
  (PLATFORM_MESSAGE_H ∉ ({[PACKET_LINK]} : gset ident)) ∧
  metadata_declares inc_none {[PACKET_LINK]} "lpl_meta" = false ∧
  metadata_declares inc_none {[PACKET_LINK]} "link_meta" = true ∧
  metadata_declares inc_none {[PACKET_LINK]} "ts_meta" = true ∧
  metadata_declares inc_none {[PACKET_LINK]} "flags_meta" = true.
Proof.
  split; [by_evaluation|].
  destruct (C2_gated_members inc_none {[PACKET_LINK]}) as (H1 & H2 & H3 & H4);
    [by_evaluation|].
  rewrite H1, H2, H3, H4. by vm_compute.
Defined.

(** ** C3 *)

(** C3: [message_header_t] is a union of exactly two members, [cc2520] of
    type [cc2520packet_header_t] and [serial] of type [serial_header_t].
    Both start at offset 0 and fit, and the size of the union is the larger
    of the two member sizes rounded up to the alignment of the union: at
    least the larger size, less than one alignment unit above it, and equal
    to it when the larger size is a multiple of the alignment. *)
Theorem C3_header_union inc ti D :
  PLATFORM_MESSAGE_H ∉ D →
  ∃ td,
    exported inc D "message_header_t" = Some td ∧
    td_su td = Union ∧
    td_body td = [ MField (Fld "cc2520packet_header_t" "cc2520");
                   MField (Fld "serial_header_t" "serial") ] ∧
    locate ti td "cc2520" =
      Some (0, Fld "cc2520packet_header_t" "cc2520") ∧
    locate ti td "serial" = Some (0, Fld "serial_header_t" "serial") ∧
    let larger := sizeof_type ti "cc2520packet_header_t"
                    `max` sizeof_type ti "serial_header_t" in
    let a := alignof_type ti "cc2520packet_header_t"
               `max` alignof_type ti "serial_header_t" in
    sizeof_typedef ti td = align_up larger a ∧
    larger ≤ sizeof_typedef ti td ∧
    sizeof_typedef ti td < larger + a ∧
    ((a | larger) → sizeof_typedef ti td = larger).
Proof.
  intros HD. exists union_message_header.
  split; [by apply exported_header|].
  do 4 (split; [reflexivity|]).
  intros larger a.
  pose proof (alignof_type_pos ti "cc2520packet_header_t") as P1.
  pose proof (alignof_type_pos ti "serial_header_t") as P2.
  assert (Ha : 0 < a) by (unfold a; lia).
  assert (E : sizeof_typedef ti union_message_header = align_up larger a).
  { unfold sizeof_typedef, sizeof_union, alignof_body; simpl.
    unfold sizeof_field, alignof_field; simpl.
    unfold larger, a. f_equal; lia. }
  rewrite E. split; [done|]. split; [by apply align_up_ge|].
  split; [by apply align_up_lt|]. by apply align_up_aligned.
Qed.

Lemma C3_header_union_witness :
  (PLATFORM_MESSAGE_H ∉ (∅ : gset ident)) ∧
  ∃ td,
    exported inc_none ∅ "message_header_t" = Some td ∧
    td_body td = [ MField (Fld "cc2520packet_header_t" "cc2520");
                   MField (Fld "serial_header_t" "serial") ] ∧
    sizeof_typedef sample_types td = 11.
Proof.
  split; [by_evaluation|].
  destruct (C3_header_union inc_none sample_types ∅)
    as (td & H1 & _ & H2 & _ & _ & H3 & _); [by_evaluation|].
  exists td. split; [exact H1|]. split; [exact H2|]. exact H3.
Defined.

(** ** C4 *)

(** C4: each exported type is at least as large as what it holds: the
    header as each of its two members, the footer as its member, and the
    metadata struct as its members together (the anonymous union, itself at
    least as large as each of its two alternatives, then [lpl_meta] if
    compiled in, [ts_meta], [link_meta] if compiled in, [flags_meta]),
    whatever the flags. *)
Theorem C4_sizes_cover_members inc ti D :
  PLATFORM_MESSAGE_H ∉ D →
  ∃ hdr ftr md,
    exported inc D "message_header_t" = Some hdr ∧
    exported inc D "message_footer_t" = Some ftr ∧
    exported inc D "message_metadata_t" = Some md ∧
    sizeof_type ti "cc2520packet_header_t" ≤ sizeof_typedef ti hdr ∧
    sizeof_type ti "serial_header_t" ≤ sizeof_typedef ti hdr ∧
    sizeof_type ti "cc2520packet_footer_t" ≤ sizeof_typedef ti ftr ∧
    sizeof_type ti "cc2520_metadata_t" ≤ sizeof_member ti metadata_union ∧
    sizeof_type ti "serial_metadata_t" ≤ sizeof_member ti metadata_union ∧
    sizeof_member ti metadata_union
    + (if bool_decide (LOW_POWER_LISTENING ∈ macros_at_typedefs inc D)
       then sizeof_type ti "lpl_metadata_t" else 0)
    + sizeof_type ti "timestamp_metadata_t"
    + (if bool_decide (PACKET_LINK ∈ macros_at_typedefs inc D)
       then sizeof_type ti "link_metadata_t" else 0)
    + sizeof_type ti "flags_metadata_t"
    ≤ sizeof_typedef ti md.
Proof.
  intros HD.
  eexists _, _, _.
  split; [by apply exported_header|].
  split; [by apply exported_footer|].
  split; [by apply exported_metadata|].
  split.
  { apply (sizeof_union_ge ti (td_body union_message_header)
             (MField (Fld "cc2520packet_header_t" "cc2520"))).
    simpl. set_solver. }
  split.
  { apply (sizeof_union_ge ti (td_body union_message_header)
             (MField (Fld "serial_header_t" "serial"))).
    simpl. set_solver. }
  split.
  { apply (sizeof_union_ge ti (td_body union_message_footer)
             (MField (Fld "cc2520packet_footer_t" "cc2520"))).
    simpl. set_solver. }
  split.
  { apply (sizeof_anonymous_union_ge ti _
             (Fld "cc2520_metadata_t" "cc2520_meta")). set_solver. }
  split.
  { apply (sizeof_anonymous_union_ge ti _
             (Fld "serial_metadata_t" "serial_meta")). set_solver. }
  etrans; [|apply sizeof_struct_ge].
  destruct (bool_decide (LOW_POWER_LISTENING ∈ _)),
    (bool_decide (PACKET_LINK ∈ _)); simpl;
    unfold sizeof_field; simpl; lia.
Qed.

Lemma C4_sizes_cover_members_witness :
  (PLATFORM_MESSAGE_H ∉ ({[LOW_POWER_LISTENING; PACKET_LINK]} : gset ident)) ∧
  ∃ md,
    exported inc_none {[LOW_POWER_LISTENING; PACKET_LINK]}
      "message_metadata_t" = Some md ∧
    3 + 2 + 4 + 4 + 1 ≤ sizeof_typedef sample_types md.
Proof.
  split; [by_evaluation|].
  destruct (C4_sizes_cover_members inc_none sample_types
              {[LOW_POWER_LISTENING; PACKET_LINK]})
    as (hdr & ftr & md & _ & _ & H & _ & _ & _ & _ & _ & Hsz);
    [by_evaluation|].
  exists md. split; [exact H|]. exact Hsz.
Defined.

(** ** C5 *)

(** C5: [message_footer_t] is a union with exactly one member, [cc2520] of
    type [cc2520packet_footer_t]; it has no member [serial]. *)
Theorem C5_footer_union inc ti D :
  PLATFORM_MESSAGE_H ∉ D →
  ∃ td,
    exported inc D "message_footer_t" = Some td ∧
    td_su td = Union ∧
    td_body td = [ MField (Fld "cc2520packet_footer_t" "cc2520") ] ∧
    member_names (td_body td) = ["cc2520"] ∧
    locate ti td "serial" = None.
Proof.
  intros HD. exists union_message_footer.
  split; [by apply exported_footer|]. by repeat split.
Qed.

Lemma C5_footer_union_witness :
  (PLATFORM_MESSAGE_H ∉ (∅ : gset ident)) ∧
  ∃ td,
    exported inc_none ∅ "message_footer_t" = Some td ∧
    member_names (td_body td) = ["cc2520"].
Proof.
  split; [by_evaluation|].
  destruct (C5_footer_union inc_none sample_types ∅)
    as (td & H1 & _ & _ & H2 & _); [by_evaluation|].
  exists td. split; [exact H1 | exact H2].
Defined.

(** ** C6 *)

(** C6: the unions carry no tag.  The members of [message_header_t] are
    [cc2520] and [serial] and nothing else, both at offset 0, and the union
    is less than one alignment unit larger than the larger of them; the
    anonymous union in [message_metadata_t] has the alternatives
    [cc2520_meta] and [serial_meta] and nothing else.  The file has no
    function and no object, and so declares none: nothing in it reads or
    checks which member is in use. *)
Theorem C6_no_discriminant inc ti D :
  PLATFORM_MESSAGE_H ∉ D →
  ∃ hdr md,
    exported inc D "message_header_t" = Some hdr ∧
    exported inc D "message_metadata_t" = Some md ∧
    member_names (td_body hdr) = ["cc2520"; "serial"] ∧
    (∀ x off f, locate ti hdr x = Some (off, f) →
       off = 0 ∧ (x = "cc2520" ∨ x = "serial")) ∧
    sizeof_typedef ti hdr <
      sizeof_type ti "cc2520packet_header_t"
        `max` sizeof_type ti "serial_header_t"
      + alignof_body ti (td_body hdr) ∧
    head (td_body md) =
      Some (MUnion [ Fld "cc2520_metadata_t" "cc2520_meta";
                     Fld "serial_metadata_t" "serial_meta" ]) ∧
    List.filter is_function (flatten platform_message_h) = [] ∧
    List.filter is_object (flatten platform_message_h) = [] ∧
    List.filter (λ d, negb (decl_is_typedef d)) (declarations inc D) = [].
Proof.
  intros HD. exists union_message_header. eexists.
  split; [by apply exported_header|].
  split; [by apply exported_metadata|].
  split; [reflexivity|].
  split.
  { intros x off f. unfold locate. simpl.
    repeat case_decide; naive_solver. }
  split.
  { unfold sizeof_typedef, sizeof_union. simpl td_su. cbv iota.
    eapply Nat.lt_le_trans; [apply align_up_lt, alignof_body_pos|].
    simpl. unfold sizeof_field. simpl. lia. }
  split; [reflexivity|].
  split; [reflexivity|].
  split; [reflexivity|].
  unfold declarations. by rewrite pp_header_fresh.
Qed.

Lemma C6_no_discriminant_witness :
  (PLATFORM_MESSAGE_H ∉ (∅ : gset ident)) ∧
  ∃ hdr,
    exported inc_none ∅ "message_header_t" = Some hdr ∧
    member_names (td_body hdr) = ["cc2520"; "serial"].
Proof.
  split; [by_evaluation|].
  destruct (C6_no_discriminant inc_none sample_types ∅)
    as (hdr & md & H1 & _ & H2 & _); [by_evaluation|].
  exists hdr. split; [exact H1 | exact H2].
Defined.

(** ** C7 *)

(** C7: apart from the include guard ([#ifndef], [#define]) and the two
    includes, the file holds the three type definitions and nothing else:
    no function and no object.  Whatever macros are defined, including it
    declares typedefs only, under the three names. *)
Theorem C7_only_type_definitions :
  List.filter is_directive (flatten platform_message_h) =
    [ IIfndef PLATFORM_MESSAGE_H [];
      IDefine PLATFORM_MESSAGE_H;
      IInclude (IncSys "Serial.h");
      IInclude (IncLocal "CC2520Radio.h") ] ∧
  List.filter (λ i, negb (is_directive i)) (flatten platform_message_h) =
    [ ITypedef message_header_src;
      ITypedef message_footer_src;
      ITypedef message_metadata_src ] ∧
  List.filter is_function (flatten platform_message_h) = [] ∧
  List.filter is_object (flatten platform_message_h) = [] ∧
  ∀ inc D d, d ∈ declarations inc D →
    ∃ td, d = DTypedef td ∧
      td_name td ∈
        ["message_header_t"; "message_footer_t"; "message_metadata_t"].
Proof.
  do 4 (split; [reflexivity|]).
  intros inc D d. unfold declarations.
  destruct (decide (PLATFORM_MESSAGE_H ∈ D)) as [HD|HD].
  - rewrite pp_header_guarded by done. simpl. by intros ?%elem_of_nil.
  - rewrite pp_header_fresh by done. simpl.
    rewrite !elem_of_cons, elem_of_nil.
    intros [->|[->|[->|[]]]]; eexists; (split; [reflexivity|]);
      simpl; set_solver.
Qed.

(** ** C10 *)

(** C10: the whole file stands inside [#ifndef PLATFORM_MESSAGE_H], which
    it defines first; including the header twice is the same as including
    it once, in the macros left defined and in the declarations made,
    provided the files it includes leave its guard defined. *)
Theorem C10_inclusion_idempotent inc D :
  (∀ h E, PLATFORM_MESSAGE_H ∈ E → PLATFORM_MESSAGE_H ∈ inc h E) →
  (∃ body, platform_message_h =
     [ IIfndef PLATFORM_MESSAGE_H (IDefine PLATFORM_MESSAGE_H :: body) ]) ∧
  pp_items inc (platform_message_h ++ platform_message_h) D =
  pp_items inc platform_message_h D.
Proof.
  intros Hinc. split; [by eexists|]. rewrite pp_items_app.
  destruct (decide (PLATFORM_MESSAGE_H ∈ D)) as [HD|HD].
  - rewrite pp_header_guarded by done. by rewrite pp_header_guarded.
  - rewrite pp_header_fresh by done.
    rewrite pp_header_guarded; [by rewrite app_nil_r|].
    unfold macros_at_typedefs. do 2 apply Hinc. set_solver.
Qed.

Lemma C10_inclusion_idempotent_witness :
  (∀ h (E : gset ident),
     PLATFORM_MESSAGE_H ∈ E → PLATFORM_MESSAGE_H ∈ inc_none h E) ∧
  pp_items inc_none (platform_message_h ++ platform_message_h)
    {[PACKET_LINK]} =
  pp_items inc_none platform_message_h {[PACKET_LINK]}.
Proof.
  split; [intros h E HE; exact HE|].
  apply (C10_inclusion_idempotent inc_none {[PACKET_LINK]}).
  intros h E HE; exact HE.
Defined.

(** ** C8 *)

Lemma overlaid_in_union u :
  u ∈ overlaid_members → is_Some (find_in_member u metadata_union).
Proof.
  unfold overlaid_members. rewrite !elem_of_cons, elem_of_nil.
  intros [->|[->|[]]]; by eexists.
Qed.

Lemma following_not_in_union y :
  y ∈ following_members → find_in_member y metadata_union = None.
Proof.
  unfold following_members. rewrite !elem_of_cons, elem_of_nil.
  intros [->|[->|[->|[->|[]]]]]; reflexivity.
Qed.

(** Where the always present members of the metadata struct are. *)
Lemma locate_metadata_member ti lpl link x ty :
  (x, ty) ∈ [ ("cc2520_meta", "cc2520_metadata_t");
              ("serial_meta", "serial_metadata_t");
              ("ts_meta", "timestamp_metadata_t");
              ("flags_meta", "flags_metadata_t") ] →
  ∃ off, locate ti (struct_message_metadata lpl link) x = Some (off, Fld ty x).
Proof.
  rewrite !elem_of_cons, elem_of_nil.
  intros [[= -> ->]|[[= -> ->]|[[= -> ->]|[[= -> ->]|[]]]]];
    destruct lpl, link; by eexists.
Qed.

(** C8: in [message_metadata_t] the union overlays [cc2520_meta] and
    [serial_meta] only.  A store to either of them leaves [ts_meta] and
    [flags_meta], and [lpl_meta] and [link_meta] when compiled in, as they
    were; a store to one of these leaves both members of the union as they
    were; for every object and every value stored.  Such stores succeed on
    every object of the type. *)
Theorem C8_metadata_union_frame inc ti D :
  PLATFORM_MESSAGE_H ∉ D →
  ∃ md,
    exported inc D "message_metadata_t" = Some md ∧
    (∀ u y v o o',
       u ∈ overlaid_members → y ∈ following_members →
       (store_member ti md u v o = Some o' →
        load_member ti md y o' = load_member ti md y o) ∧
       (store_member ti md y v o = Some o' →
        load_member ti md u o' = load_member ti md u o)) ∧
    (∀ x ty v o,
       (x, ty) ∈ [ ("cc2520_meta", "cc2520_metadata_t");
                   ("serial_meta", "serial_metadata_t");
                   ("ts_meta", "timestamp_metadata_t");
                   ("flags_meta", "flags_metadata_t") ] →
       length v = sizeof_type ti ty → object_of ti md o →
       is_Some (store_member ti md x v o) ∧ is_Some (load_member ti md x o)).
Proof.
  intros HD. eexists. split; [by apply exported_metadata|].
  set (lpl := bool_decide (LOW_POWER_LISTENING ∈ _)).
  set (link := bool_decide (PACKET_LINK ∈ _)).
  split.
  - intros u y v o o' Hu%overlaid_in_union Hy%following_not_in_union.
    split; intros H.
    + exact (store_head_frame ti _ _ metadata_union _ u y v o o' Hu Hy H).
    + exact (store_tail_frame ti _ _ metadata_union _ u y v o o' Hu Hy H).
  - intros x ty v o Hx Hv Ho.
    destruct (locate_metadata_member ti lpl link x ty Hx) as [off Hl].
    split.
    + erewrite store_member_Some by done. by eexists.
    + unfold load_member. rewrite Hl. simpl.
      apply locate_bounds in Hl. unfold object_of in Ho.
      rewrite decide_True by lia. by eexists.
Qed.

Lemma C8_metadata_union_frame_witness :
  (PLATFORM_MESSAGE_H ∉ ({[LOW_POWER_LISTENING]} : gset ident)) ∧
  ∃ md,
    exported inc_none {[LOW_POWER_LISTENING]} "message_metadata_t" = Some md ∧
    ∀ v o o',
      store_member sample_types md "cc2520_meta" v o = Some o' →
      load_member sample_types md "ts_meta" o' =
      load_member sample_types md "ts_meta" o.
Proof.
  split; [by_evaluation|].
  destruct (C8_metadata_union_frame inc_none sample_types
              {[LOW_POWER_LISTENING]}) as (md & H1 & H2 & _);
    [by_evaluation|].
  exists md. split; [exact H1|].
  intros v o o'.
  destruct (H2 "cc2520_meta" "ts_meta" v o o') as [H _];
    [by_evaluation | by_evaluation | exact H].
Defined.

(** ** C9 *)

Lemma store_load_round_trip ti td x off f v o :
  locate ti td x = Some (off, f) →
  length v = sizeof_field ti f →
  object_of ti td o →
  ∃ o', store_member ti td x v o = Some o' ∧ object_of ti td o' ∧
        load_member ti td x o' = Some v.
Proof.
  intros Hl Hv Ho. exists (store_bytes o off v).
  assert (H : store_member ti td x v o = Some (store_bytes o off v))
    by by apply store_member_Some with f.
  split; [done|]. split.
  - by apply store_member_object with x v o.
  - by apply load_store_member with o.
Qed.

(** C9: for each union member ([cc2520] and [serial] of
    [message_header_t], [cc2520] of [message_footer_t], [cc2520_meta] and
    [serial_meta] of [message_metadata_t]), storing a value of the member's
    type into an object succeeds, and reading the same member of the result
    gives the value stored. *)
Theorem C9_union_member_round_trip inc ti D n x ty :
  PLATFORM_MESSAGE_H ∉ D →
  (n, x, ty) ∈ union_members →
  ∃ td,
    exported inc D n = Some td ∧
    ∀ v o, length v = sizeof_type ti ty → object_of ti td o →
      ∃ o', store_member ti td x v o = Some o' ∧
            object_of ti td o' ∧
            load_member ti td x o' = Some v.
Proof.
  intros HD. unfold union_members. rewrite !elem_of_cons, elem_of_nil.
  intros [[= -> -> ->]|[[= -> -> ->]|[[= -> -> ->]|
          [[= -> -> ->]|[[= -> -> ->]|[]]]]]].
  - exists union_message_header. split; [by apply exported_header|].
    intros v o Hv Ho. by eapply store_load_round_trip.
  - exists union_message_header. split; [by apply exported_header|].
    intros v o Hv Ho. by eapply store_load_round_trip.
  - exists union_message_footer. split; [by apply exported_footer|].
    intros v o Hv Ho. by eapply store_load_round_trip.
  - eexists. split; [by apply exported_metadata|].
    intros v o Hv Ho.
    edestruct (locate_metadata_member ti) as [off Hl];
      [|by eapply store_load_round_trip]. set_solver.
  - eexists. split; [by apply exported_metadata|].
    intros v o Hv Ho.
    edestruct (locate_metadata_member ti) as [off Hl];
      [|by eapply store_load_round_trip]. set_solver.
Qed.

Lemma C9_union_member_round_trip_witness :
  (PLATFORM_MESSAGE_H ∉ (∅ : gset ident)) ∧
  ("message_header_t", "serial", "serial_header_t") ∈ union_members ∧
  ∃ td,
    exported inc_none ∅ "message_header_t" = Some td ∧
    ∃ o',
      store_member sample_types td "serial"
        (replicate 7 Byte.x01) (replicate 11 Byte.x00) = Some o' ∧
      load_member sample_types td "serial" o' =
        Some (replicate 7 Byte.x01).
Proof.
  split; [by_evaluation|]. split; [by_evaluation|].
  destruct (C9_union_member_round_trip inc_none sample_types ∅
              "message_header_t" "serial" "serial_header_t")
    as (td & H1 & H2); [by_evaluation | by_evaluation |].
  exists td. split; [exact H1|].
  destruct (H2 (replicate 7 Byte.x01) (replicate 11 Byte.x00))
    as (o' & Hs & _ & Hl).
  - reflexivity.
  - unfold object_of. rewrite length_replicate.
    injection (eq_trans (eq_sym H1) (exported_header inc_none ∅
      (not_elem_of_empty _))) as ->. reflexivity.
  - exists o'. split; [exact Hs | exact Hl].
Defined.

(** * Further properties of the header *)

(** ** The exported types, case by case *)

Lemma exported_cases inc D n td :
  PLATFORM_MESSAGE_H ∉ D →
  exported inc D n = Some td →
  td = union_message_header ∨ td = union_message_footer ∨
  td = struct_message_metadata
         (bool_decide (LOW_POWER_LISTENING ∈ macros_at_typedefs inc D))
         (bool_decide (PACKET_LINK ∈ macros_at_typedefs inc D)).
Proof.
  intros HD. unfold exported, declarations. rewrite pp_header_fresh by done.
  simpl. repeat case_decide; naive_solver.
Qed.

(** ** X1 *)

(** X1: when PLATFORM_MESSAGE_H is already defined, including the header
    does nothing: the macros stay as they are (the two includes are not
    processed, whatever they would define), no declaration is made and none
    of the type names is exported. *)
Theorem X1_guard_defined_skips_file inc D :
  PLATFORM_MESSAGE_H ∈ D →
  pp_items inc platform_message_h D = (D, []) ∧
  ∀ n, exported inc D n = None.
Proof.
  intros HD. split; [by apply pp_header_guarded|].
  intros n. unfold exported, declarations.
  by rewrite pp_header_guarded.
Qed.

Lemma X1_guard_defined_skips_file_witness :
  (PLATFORM_MESSAGE_H ∈ ({[PLATFORM_MESSAGE_H]} : gset ident)) ∧
  pp_items inc_features platform_message_h {[PLATFORM_MESSAGE_H]} =
    ({[PLATFORM_MESSAGE_H]}, []) ∧
  exported inc_features {[PLATFORM_MESSAGE_H]} "message_metadata_t" = None.
Proof.
  split; [by_evaluation|].
  destruct (X1_guard_defined_skips_file inc_features {[PLATFORM_MESSAGE_H]})
    as [H1 H2]; [by_evaluation|].
  split; [exact H1 | exact (H2 "message_metadata_t")].
Defined.

(** ** X2 *)



(** ** X3 *)

(** X3: in every configuration the header declares three typedefs whose
    names are pairwise distinct, whose tags are pairwise distinct, and the
    member names of each are pairwise distinct: a member name designates at
    most one member. *)
Theorem X3_names_distinct inc D :
  PLATFORM_MESSAGE_H ∉ D →
  length (declarations inc D) = 3 ∧
  NoDup (decl_name <$> declarations inc D) ∧
  NoDup (decl_tag <$> declarations inc D) ∧
  ∀ n td, exported inc D n = Some td → NoDup (member_names (td_body td)).
Proof.
  intros HD. unfold declarations at 1 2 3. rewrite pp_header_fresh by done.
  split; [done|]. split; [by_evaluation|]. split; [by_evaluation|].
  intros n td H.
  apply (exported_cases _ _ _ _ HD) in H as [ -> | [ -> | -> ] ].
  - by_evaluation.
  - by_evaluation.
  - destruct (bool_decide (LOW_POWER_LISTENING ∈ _)),
      (bool_decide (PACKET_LINK ∈ _)); by_evaluation.
Qed.

Lemma X3_names_distinct_witness :
  (PLATFORM_MESSAGE_H ∉ ({[LOW_POWER_LISTENING; PACKET_LINK]} : gset ident)) ∧
  decl_name <$> declarations inc_none {[LOW_POWER_LISTENING; PACKET_LINK]} =
    ["message_header_t"; "message_footer_t"; "message_metadata_t"] ∧
  NoDup (decl_name <$>
           declarations inc_none {[LOW_POWER_LISTENING; PACKET_LINK]}).
Proof.
  split; [by_evaluation|]. split; [by_evaluation|].
  apply (X3_names_distinct inc_none {[LOW_POWER_LISTENING; PACKET_LINK]}).
  by_evaluation.
Defined.

(** ** Names and members *)

Lemma member_names_cons m ms :
  member_names (m :: ms) = member_names [m] ++ member_names ms.
Proof. unfold member_names. simpl. by rewrite app_nil_r. Qed.

Lemma find_in_member_names x m :
  is_Some (find_in_member x m) ↔ x ∈ member_names [m].
Proof.
  unfold member_names. simpl. rewrite app_nil_r.
  destruct m as [f|alts]; simpl.
  - rewrite list_elem_of_singleton. case_decide; split.
    + done.
    + by eexists.
    + by intros [? ?].
    + by intros ->.
  - induction alts as [|f alts IH]; simpl.
    + split; [by intros [? ?] | by intros ?%elem_of_nil].
    + rewrite elem_of_cons. case_bool_decide as Hf.
      * split; [by left | by eexists].
      * change (list_fmap field ident fld_name alts)
          with (fld_name <$> alts).
        rewrite IH. split; [by right|]. by intros [->|?].
Qed.

Section NameFacts.

Variable ti : ident → type_info.

Lemma locate_struct_names off ms x :
  is_Some (locate_struct ti off ms x) ↔ x ∈ member_names ms.
Proof.
  revert off. induction ms as [|m r IH]; intros off.
  - simpl. split; [by intros [? ?] | by intros ?%elem_of_nil].
  - rewrite member_names_cons, elem_of_app, <- find_in_member_names.
    simpl. destruct (find_in_member x m) as [f|].
    + split; [by left | by eexists].
    + rewrite IH. split; [by right|]. by intros [[? ?]|?].
Qed.

Lemma locate_union_names ms x :
  is_Some (locate_union ms x) ↔ x ∈ member_names ms.
Proof.
  induction ms as [|m r IH].
  - simpl. split; [by intros [? ?] | by intros ?%elem_of_nil].
  - rewrite member_names_cons, elem_of_app, <- find_in_member_names.
    simpl. destruct (find_in_member x m) as [f|].
    + split; [by left | by eexists].
    + rewrite IH. split; [by right|]. by intros [[? ?]|?].
Qed.

(** A name designates a member exactly when it is declared. *)
Lemma locate_names td x :
  is_Some (locate ti td x) ↔ x ∈ member_names (td_body td).
Proof.
  unfold locate. destruct (td_su td).
  - apply locate_struct_names.
  - apply locate_union_names.
Qed.




(** In a struct, two names that no single declaration holds both of
    designate members that share no byte. *)
Lemma locate_struct_apart off ms x y ox fx oy fy :
  (∀ m, m ∈ ms →
     ¬ (is_Some (find_in_member x m) ∧ is_Some (find_in_member y m))) →
  locate_struct ti off ms x = Some (ox, fx) →
  locate_struct ti off ms y = Some (oy, fy) →
  ox + sizeof_field ti fx ≤ oy ∨ oy + sizeof_field ti fy ≤ ox.
Proof.
  revert off. induction ms as [|m r IH]; intros off Hm; simpl; [done|].
  destruct (find_in_member x m) as [gx|] eqn:Hx,
           (find_in_member y m) as [gy|] eqn:Hy.
  - destruct (Hm m); [set_solver|]. rewrite Hx, Hy. by split; eexists.
  - intros [= <- <-] Ly. left.
    apply locate_struct_bounds in Ly.
    pose proof (find_in_member_size ti _ _ _ Hx). lia.
  - intros Lx [= <- <-]. right.
    apply locate_struct_bounds in Lx.
    pose proof (find_in_member_size ti _ _ _ Hy). lia.
  - apply IH. intros m' Hm'. apply Hm. set_solver.
Qed.

End NameFacts.

(** ** X4 *)

(** X4: a name designates a member of an exported type exactly when the
    type declares it in the configuration at hand.  Access through a name
    that is not declared fails: [serial] in [message_footer_t], [lpl_meta]
    when LOW_POWER_LISTENING is undefined, [link_meta] when PACKET_LINK is
    undefined. *)
Theorem X4_undeclared_member_access inc ti D :
  PLATFORM_MESSAGE_H ∉ D →
  ∃ ftr md,
    exported inc D "message_footer_t" = Some ftr ∧
    exported inc D "message_metadata_t" = Some md ∧
    (∀ n td x, exported inc D n = Some td →
       (is_Some (locate ti td x) ↔ x ∈ member_names (td_body td))) ∧
    (∀ v o, load_member ti ftr "serial" o = None ∧
            store_member ti ftr "serial" v o = None) ∧
    (LOW_POWER_LISTENING ∉ macros_at_typedefs inc D →
     ∀ v o, load_member ti md "lpl_meta" o = None ∧
            store_member ti md "lpl_meta" v o = None) ∧
    (PACKET_LINK ∉ macros_at_typedefs inc D →
     ∀ v o, load_member ti md "link_meta" o = None ∧
            store_member ti md "link_meta" v o = None).
Proof.
  intros HD. eexists _, _.
  split; [by apply exported_footer|].
  split; [by apply exported_metadata|].
  split; [intros n td x _; apply locate_names|].
  split; [done|].
  split; intros H v o; rewrite (bool_decide_eq_false_2 _ H);
    by destruct (bool_decide _).
Qed.

Lemma X4_undeclared_member_access_witness :
  (PLATFORM_MESSAGE_H ∉ ({[PACKET_LINK]} : gset ident)) ∧
  ∃ md,
    exported inc_none {[PACKET_LINK]} "message_metadata_t" = Some md ∧
    load_member sample_types md "lpl_meta" (replicate 10 Byte.x00) = None.
Proof.
  split; [by_evaluation|].
  destruct (X4_undeclared_member_access inc_none sample_types {[PACKET_LINK]})
    as (ftr & md & _ & H1 & _ & _ & H2 & _); [by_evaluation|].
  exists md. split; [exact H1|].
  apply (H2 ltac:(by_evaluation) [] (replicate 10 Byte.x00)).
Defined.

(** ** X5 *)



(** ** X6 *)

Lemma metadata_no_shared_declaration lpl link x y m :
  x ≠ y → ¬ (x ∈ overlaid_members ∧ y ∈ overlaid_members) →
  m ∈ metadata_composition lpl link →
  ¬ (is_Some (find_in_member x m) ∧ is_Some (find_in_member y m)).
Proof.
  intros Hxy Hov Hm [[fx Hx] [fy Hy]].
  destruct m as [f|alts].
  - apply find_in_member_elem in Hx as [Hx ->].
    apply find_in_member_elem in Hy as [Hy ->]. congruence.
  - assert (alts = [ Fld "cc2520_metadata_t" "cc2520_meta";
                     Fld "serial_metadata_t" "serial_meta" ]) as ->.
    { unfold metadata_composition, when, metadata_union in Hm.
      destruct lpl, link; cbn [app] in Hm;
        rewrite !elem_of_cons, elem_of_nil in Hm;
        repeat destruct Hm as [Hm|Hm]; by try injection Hm as ->. }
    apply Hov. split.
    + apply (find_in_member_names x metadata_union). by eexists.
    + apply (find_in_member_names y metadata_union). by eexists.
Qed.

(** X6: in [message_metadata_t], in every configuration, a store to one
    member leaves every other member as it was, unless the two are the
    overlaid [cc2520_meta] and [serial_meta]. *)
Theorem X6_metadata_members_apart inc ti D :
  PLATFORM_MESSAGE_H ∉ D →
  ∃ md,
    exported inc D "message_metadata_t" = Some md ∧
    ∀ x y v o o',
      x ≠ y → ¬ (x ∈ overlaid_members ∧ y ∈ overlaid_members) →
      store_member ti md x v o = Some o' →
      load_member ti md y o' = load_member ti md y o.
Proof.
  intros HD. eexists. split; [by apply exported_metadata|].
  set (lpl := bool_decide (LOW_POWER_LISTENING ∈ _)).
  set (link := bool_decide (PACKET_LINK ∈ _)).
  intros x y v o o' Hxy Hov H.
  destruct (locate ti (struct_message_metadata lpl link) y)
    as [[oy fy]|] eqn:Ly; [|by rewrite !load_member_None].
  destruct (store_member_inv ti _ _ _ _ _ H) as (ox & fx & Lx & _).
  eapply load_store_member_apart; [exact Lx | exact Ly | | exact H].
  eapply (locate_struct_apart ti 0 (metadata_composition lpl link) x y);
    [|exact Lx|exact Ly].
  intros m Hm. by apply (metadata_no_shared_declaration lpl link).
Qed.

Lemma X6_metadata_members_apart_witness :
  (PLATFORM_MESSAGE_H ∉ ({[LOW_POWER_LISTENING; PACKET_LINK]} : gset ident)) ∧
  ∃ md,
    exported inc_none {[LOW_POWER_LISTENING; PACKET_LINK]}
      "message_metadata_t" = Some md ∧
    ∀ v o o',
      store_member sample_types md "lpl_meta" v o = Some o' →
      load_member sample_types md "link_meta" o' =
      load_member sample_types md "link_meta" o.
Proof.
  split; [by_evaluation|].
  destruct (X6_metadata_members_apart inc_none sample_types
              {[LOW_POWER_LISTENING; PACKET_LINK]}) as (md & H1 & H2);
    [by_evaluation|].
  exists md. split; [exact H1|]. intros v o o'.
  apply (H2 "lpl_meta" "link_meta" v o o').
  - discriminate.
  - intros [H _]. revert H. by_evaluation.
Defined.

(** ** X7 *)

Lemma align_up_0 a : 0 < a → align_up 0 a = 0.
Proof.
  intros Ha. unfold align_up. simpl. rewrite Nat.div_small by lia. done.
Qed.



Lemma locate_metadata_union_member ti lpl link x ty :
  Fld ty x ∈ [ Fld "cc2520_metadata_t" "cc2520_meta";
               Fld "serial_metadata_t" "serial_meta" ] →
  locate ti (struct_message_metadata lpl link) x = Some (0, Fld ty x).
Proof.
  rewrite !elem_of_cons, elem_of_nil.
  intros [[= -> ->]|[[= -> ->]|[]]]; unfold locate; simpl;
    by rewrite align_up_0
      by (pose proof (foldr_max_ge 1 (alignof_field ti <$>
            [ Fld "cc2520_metadata_t" "cc2520_meta";
              Fld "serial_metadata_t" "serial_meta" ])); simpl in *; lia).
Qed.



(** ** X8 *)

(** X8: in every configuration both alternatives of the anonymous union are
    at offset 0 of [message_metadata_t], and every other member of the
    struct starts at or after the end of the union. *)
Theorem X8_metadata_union_first inc ti D :
  PLATFORM_MESSAGE_H ∉ D →
  ∃ md,
    exported inc D "message_metadata_t" = Some md ∧
    locate ti md "cc2520_meta" =
      Some (0, Fld "cc2520_metadata_t" "cc2520_meta") ∧
    locate ti md "serial_meta" =
      Some (0, Fld "serial_metadata_t" "serial_meta") ∧
    ∀ y off f,
      y ∉ overlaid_members →
      locate ti md y = Some (off, f) →
      sizeof_member ti metadata_union ≤ off.
Proof.
  intros HD. eexists. split; [by apply exported_metadata|].
  set (lpl := bool_decide (LOW_POWER_LISTENING ∈ _)).
  set (link := bool_decide (PACKET_LINK ∈ _)).
  split; [apply locate_metadata_union_member; repeat constructor|].
  split; [apply locate_metadata_union_member; repeat constructor|].
  intros y off f Hy. unfold locate.
  change (td_body (struct_message_metadata lpl link))
    with (metadata_union :: tail (metadata_composition lpl link)).
  simpl td_su. cbv iota. cbn [locate_struct].
  destruct (find_in_member y metadata_union) as [g|] eqn:Hg.
  - destruct Hy. apply (find_in_member_names y metadata_union). by eexists.
  - intros H%locate_struct_bounds. lia.
Qed.

Lemma X8_metadata_union_first_witness :
  (PLATFORM_MESSAGE_H ∉ ({[LOW_POWER_LISTENING]} : gset ident)) ∧
  ∃ md,
    exported inc_none {[LOW_POWER_LISTENING]} "message_metadata_t" = Some md ∧
    locate sample_types md "serial_meta" =
      Some (0, Fld "serial_metadata_t" "serial_meta").
Proof.
  split; [by_evaluation|].
  destruct (X8_metadata_union_first inc_none sample_types
              {[LOW_POWER_LISTENING]}) as (md & H1 & _ & H2 & _);
    [by_evaluation|].
  exists md. split; [exact H1 | exact H2].
Defined.

(** ** X9 *)

Lemma pow2_max a b : 2 ^ a `max` 2 ^ b = 2 ^ (a `max` b).
Proof.
  destruct (Nat.le_ge_cases a b) as [H|H].
  - rewrite (Nat.max_r a b) by done.
    apply Nat.max_r, Nat.pow_le_mono_r; lia.
  - rewrite (Nat.max_l a b) by done.
    apply Nat.max_l, Nat.pow_le_mono_r; lia.
Qed.

Lemma pow2_divide a b : a ≤ b → (2 ^ a | 2 ^ b).
Proof.
  intros H. exists (2 ^ (b - a)). rewrite <- Nat.pow_add_r. f_equal. lia.
Qed.

Lemma pow2_le_divide a b :
  (∃ i, a = 2 ^ i) → (∃ j, b = 2 ^ j) → a ≤ b → (a | b).
Proof.
  intros [i ->] [j ->] H. apply pow2_divide.
  apply (Nat.pow_le_mono_r_iff 2); [lia | done].
Qed.

(** The largest of powers of two is a power of two that each of them
    divides. *)
Lemma foldr_max_pow2 (l : list nat) :
  Forall (λ n, ∃ k, n = 2 ^ k) l →
  (∃ k, foldr Nat.max 1 l = 2 ^ k) ∧
  Forall (λ n, (n | foldr Nat.max 1 l)) l.
Proof.
  induction 1 as [|n r [k ->] Hr [[j Hj] IH]]; simpl.
  - split; [by exists 0 | constructor].
  - rewrite Hj, pow2_max. split; [by eexists|]. constructor.
    + apply pow2_divide. lia.
    + rewrite Hj in IH. eapply Forall_impl; [exact IH|]. simpl.
      intros n Hn. etrans; [exact Hn|]. apply pow2_divide. lia.
Qed.

Section AlignmentFacts.

Variable ti : ident → type_info.

Lemma alignof_fields_pow2 alts :
  Forall (λ n, ∃ k, n = 2 ^ k) (alignof_field ti <$> alts).
Proof.
  apply Forall_fmap, Forall_forall. intros f _. simpl. by eexists.
Qed.

Lemma alignof_member_pow2 m : ∃ k, alignof_member ti m = 2 ^ k.
Proof.
  destruct m as [f|alts]; simpl.
  - by eexists.
  - apply foldr_max_pow2, alignof_fields_pow2.
Qed.

Lemma alignof_members_pow2 ms :
  Forall (λ n, ∃ k, n = 2 ^ k) (alignof_member ti <$> ms).
Proof.
  apply Forall_fmap, Forall_forall. intros m _. apply alignof_member_pow2.
Qed.

Lemma alignof_body_pow2 ms : ∃ k, alignof_body ti ms = 2 ^ k.
Proof. apply foldr_max_pow2, alignof_members_pow2. Qed.






End AlignmentFacts.



(** ** X10 *)

Lemma align_up_mono n n' a : n ≤ n' → align_up n a ≤ align_up n' a.
Proof.
  intros H. unfold align_up.
  apply Nat.mul_le_mono_r, Nat.Div0.div_le_mono. lia.
Qed.

(** [align_up n a] is the least multiple of [a] from [n] on. *)
Lemma align_up_least n a m :
  0 < a → (a | m) → n ≤ m → align_up n a ≤ m.
Proof.
  intros Ha [k ->] H. unfold align_up.
  apply Nat.mul_le_mono_r.
  assert ((n + (a - 1)) / a < S k); [|lia].
  apply Nat.Div0.div_lt_upper_bound. lia.
Qed.

Lemma foldr_max_insert (l1 l2 : list nat) x :
  foldr Nat.max 1 (l1 ++ l2) ≤ foldr Nat.max 1 (l1 ++ x :: l2).
Proof. induction l1; simpl; lia. Qed.

Section GrowthFacts.

Variable ti : ident → type_info.

Lemma struct_end_mono off off' ms :
  off ≤ off' → struct_end ti off ms ≤ struct_end ti off' ms.
Proof.
  revert off off'. induction ms as [|m r IH]; intros off off' H; simpl.
  - done.
  - apply IH. pose proof (align_up_mono off off' (alignof_member ti m) H).
    lia.
Qed.

Lemma struct_end_insert off pre m post :
  struct_end ti off (pre ++ post) ≤ struct_end ti off (pre ++ m :: post).
Proof.
  revert off. induction pre as [|p pre IH]; intros off; simpl.
  - apply struct_end_mono.
    pose proof (align_up_ge off _ (alignof_member_pos ti m)). lia.
  - apply IH.
Qed.

Lemma alignof_body_insert pre m post :
  (alignof_body ti (pre ++ post) | alignof_body ti (pre ++ m :: post)).
Proof.
  apply pow2_le_divide; [apply alignof_body_pow2..|].
  unfold alignof_body. rewrite !fmap_app, fmap_cons.
  apply foldr_max_insert.
Qed.

(** A struct does not shrink when a member is added to it. *)
Lemma sizeof_struct_insert pre m post :
  sizeof_struct ti (pre ++ post) ≤ sizeof_struct ti (pre ++ m :: post).
Proof.
  unfold sizeof_struct. apply align_up_least.
  - apply alignof_body_pos.
  - etrans; [apply alignof_body_insert | apply align_up_divide].
  - etrans; [apply struct_end_insert|].
    apply align_up_ge, alignof_body_pos.
Qed.

Lemma locate_struct_mono off off' ms x o f :
  off ≤ off' →
  locate_struct ti off ms x = Some (o, f) →
  ∃ o', locate_struct ti off' ms x = Some (o', f) ∧ o ≤ o'.
Proof.
  revert off off'. induction ms as [|m r IH]; intros off off' H; simpl.
  - done.
  - pose proof (align_up_mono off off' (alignof_member ti m) H).
    destruct (find_in_member x m) as [g|].
    + intros [= <- <-]. by eexists.
    + apply IH. lia.
Qed.

(** Nor do its members move towards the start. *)
Lemma locate_struct_insert off pre m post x o f :
  find_in_member x m = None →
  locate_struct ti off (pre ++ post) x = Some (o, f) →
  ∃ o', locate_struct ti off (pre ++ m :: post) x = Some (o', f) ∧ o ≤ o'.
Proof.
  intros Hm. revert off. induction pre as [|p pre IH]; intros off; simpl.
  - rewrite Hm. apply locate_struct_mono.
    pose proof (align_up_ge off _ (alignof_member_pos ti m)). lia.
  - destruct (find_in_member x p) as [g|].
    + intros [= <- <-]. by eexists.
    + apply IH.
Qed.

Lemma layout_le_refl td : layout_le ti td td.
Proof. split; [done|]. intros x off f H. by exists off. Qed.

Lemma layout_le_trans td1 td2 td3 :
  layout_le ti td1 td2 → layout_le ti td2 td3 → layout_le ti td1 td3.
Proof.
  intros [S1 L1] [S2 L2]. split; [lia|].
  intros x off f H. apply L1 in H as (off1 & H & ?).
  apply L2 in H as (off2 & H & ?). exists off2. split; [done | lia].
Qed.

Lemma layout_le_insert tag name pre m post :
  (∀ x, is_Some (find_in_member x m) →
        locate_struct ti 0 (pre ++ post) x = None) →
  layout_le ti (Typedef Struct tag (pre ++ post) name)
               (Typedef Struct tag (pre ++ m :: post) name).
Proof.
  intros Hnew. split.
  - apply sizeof_struct_insert.
  - intros x off f. unfold locate. simpl. intros H.
    apply locate_struct_insert; [|done].
    destruct (find_in_member x m) as [g|] eqn:Hg; [|done].
    rewrite Hnew in H by by eexists. done.
Qed.

Lemma metadata_with_lpl link :
  layout_le ti (struct_message_metadata false link)
               (struct_message_metadata true link).
Proof.
  apply (layout_le_insert _ _ [metadata_union]
           (MField (Fld "lpl_metadata_t" "lpl_meta"))).
  intros x [g Hg]. apply find_in_member_elem in Hg as [<- <-].
  by destruct link.
Qed.

Lemma metadata_with_link lpl :
  layout_le ti (struct_message_metadata lpl false)
               (struct_message_metadata lpl true).
Proof.
  destruct lpl.
  - apply (layout_le_insert _ _
             [ metadata_union; MField (Fld "lpl_metadata_t" "lpl_meta");
               MField (Fld "timestamp_metadata_t" "ts_meta") ]
             (MField (Fld "link_metadata_t" "link_meta"))).
    by intros x [g [<- <-]%find_in_member_elem].
  - apply (layout_le_insert _ _
             [ metadata_union;
               MField (Fld "timestamp_metadata_t" "ts_meta") ]
             (MField (Fld "link_metadata_t" "link_meta"))).
    by intros x [g [<- <-]%find_in_member_elem].
Qed.

Lemma metadata_grows lpl link lpl' link' :
  (lpl = true → lpl' = true) → (link = true → link' = true) →
  layout_le ti (struct_message_metadata lpl link)
               (struct_message_metadata lpl' link').
Proof.
  intros H1 H2.
  apply layout_le_trans with (struct_message_metadata lpl' link).
  - destruct lpl, lpl'; try apply layout_le_refl.
    + by specialize (H1 eq_refl).
    + apply metadata_with_lpl.
  - destruct link, link'; try apply layout_le_refl.
    + by specialize (H2 eq_refl).
    + apply metadata_with_link.
Qed.

End GrowthFacts.

(** X10: compiling a feature in never shrinks [message_metadata_t] and
    never moves a member towards the start.  Between two configurations of
    which the second defines LOW_POWER_LISTENING and PACKET_LINK wherever
    the first does, the struct of the second is at least as large, and
    every member of the first is a member of the second at an offset that
    is at least as large. *)
Theorem X10_features_grow_metadata inc inc' ti D D' :
  PLATFORM_MESSAGE_H ∉ D → PLATFORM_MESSAGE_H ∉ D' →
  (LOW_POWER_LISTENING ∈ macros_at_typedefs inc D →
   LOW_POWER_LISTENING ∈ macros_at_typedefs inc' D') →
  (PACKET_LINK ∈ macros_at_typedefs inc D →
   PACKET_LINK ∈ macros_at_typedefs inc' D') →
  ∃ md md',
    exported inc D "message_metadata_t" = Some md ∧
    exported inc' D' "message_metadata_t" = Some md' ∧
    sizeof_typedef ti md ≤ sizeof_typedef ti md' ∧
    ∀ x off f, locate ti md x = Some (off, f) →
      ∃ off', locate ti md' x = Some (off', f) ∧ off ≤ off'.
Proof.
  intros HD HD' H1 H2. eexists _, _.
  split; [by apply exported_metadata|].
  split; [by apply exported_metadata|].
  apply metadata_grows.
  - intros H%bool_decide_eq_true. by apply bool_decide_eq_true, H1.
  - intros H%bool_decide_eq_true. by apply bool_decide_eq_true, H2.
Qed.

Lemma X10_features_grow_metadata_witness :
  (PLATFORM_MESSAGE_H ∉ ({[LOW_POWER_LISTENING]} : gset ident)) ∧
  (PLATFORM_MESSAGE_H ∉ ({[LOW_POWER_LISTENING; PACKET_LINK]} : gset ident)) ∧
  ∃ md md',
    exported inc_none {[LOW_POWER_LISTENING]} "message_metadata_t"
      = Some md ∧
    exported inc_none {[LOW_POWER_LISTENING; PACKET_LINK]}
      "message_metadata_t" = Some md' ∧
    sizeof_typedef sample_types md ≤ sizeof_typedef sample_types md'.
Proof.
  split; [by_evaluation|]. split; [by_evaluation|].
  destruct (X10_features_grow_metadata inc_none inc_none sample_types
              {[LOW_POWER_LISTENING]} {[LOW_POWER_LISTENING; PACKET_LINK]})
    as (md & md' & H1 & H2 & H3 & _).
  - by_evaluation.
  - by_evaluation.
  - intros _. by_evaluation.
  - intros H. revert H. by_evaluation.
  - exists md, md'. split; [exact H1|]. split; [exact H2 | exact H3].
Defined.

(** ** X11 *)

Lemma align_up_1 n : align_up n 1 = n.
Proof.
  unfold align_up. replace (n + (1 - 1)) with n by lia.
  rewrite Nat.div_1_r. lia.
Qed.

Section PackedFacts.

Variable ti : ident → type_info.
Hypothesis byte_aligned : ∀ ty, ti_align_log2 (ti ty) = 0.

Lemma alignof_fields_packed alts :
  foldr Nat.max 1 (alignof_field ti <$> alts) = 1.
Proof.
  induction alts as [|f alts IH]; [done|].
  rewrite fmap_cons. simpl. rewrite IH.
  unfold alignof_field, alignof_type. by rewrite byte_aligned.
Qed.

Lemma alignof_member_packed m : alignof_member ti m = 1.
Proof.
  destruct m as [f|alts]; simpl.
  - unfold alignof_field, alignof_type. by rewrite byte_aligned.
  - apply alignof_fields_packed.
Qed.

Lemma alignof_body_packed ms : alignof_body ti ms = 1.
Proof.
  unfold alignof_body. induction ms as [|m r IH]; [done|].
  rewrite fmap_cons. simpl. by rewrite IH, alignof_member_packed.
Qed.

Lemma sizeof_union_packed ms :
  sizeof_union ti ms = max_list (sizeof_member ti <$> ms).
Proof. unfold sizeof_union. by rewrite alignof_body_packed, align_up_1. Qed.

Lemma struct_end_packed off ms :
  struct_end ti off ms = off + sum_list (sizeof_member ti <$> ms).
Proof.
  revert off. induction ms as [|m r IH]; intros off.
  - simpl. lia.
  - rewrite fmap_cons. simpl.
    rewrite IH, alignof_member_packed, align_up_1. lia.
Qed.

Lemma sizeof_struct_packed ms :
  sizeof_struct ti ms = sum_list (sizeof_member ti <$> ms).
Proof.
  unfold sizeof_struct.
  by rewrite alignof_body_packed, align_up_1, struct_end_packed.
Qed.

Lemma sizeof_metadata_union_packed :
  sizeof_member ti metadata_union =
  sizeof_type ti "cc2520_metadata_t" `max` sizeof_type ti "serial_metadata_t".
Proof.
  unfold metadata_union. cbn [sizeof_member].
  rewrite alignof_fields_packed, align_up_1.
  simpl. unfold sizeof_field. simpl. lia.
Qed.

End PackedFacts.

(** X11: when the member types are byte-aligned there is no padding.  The
    header is exactly as large as the larger of its two members, the footer
    as its member, and the metadata struct as the larger of [cc2520_meta]
    and [serial_meta] plus the members after the union that the
    configuration compiles in. *)
Theorem X11_packed_sizes inc ti D :
  PLATFORM_MESSAGE_H ∉ D →
  (∀ ty, ti_align_log2 (ti ty) = 0) →
  ∃ hdr ftr md,
    exported inc D "message_header_t" = Some hdr ∧
    exported inc D "message_footer_t" = Some ftr ∧
    exported inc D "message_metadata_t" = Some md ∧
    sizeof_typedef ti hdr =
      sizeof_type ti "cc2520packet_header_t"
        `max` sizeof_type ti "serial_header_t" ∧
    sizeof_typedef ti ftr = sizeof_type ti "cc2520packet_footer_t" ∧
    sizeof_typedef ti md =
      sizeof_type ti "cc2520_metadata_t"
        `max` sizeof_type ti "serial_metadata_t"
      + (if bool_decide (LOW_POWER_LISTENING ∈ macros_at_typedefs inc D)
         then sizeof_type ti "lpl_metadata_t" else 0)
      + sizeof_type ti "timestamp_metadata_t"
      + (if bool_decide (PACKET_LINK ∈ macros_at_typedefs inc D)
         then sizeof_type ti "link_metadata_t" else 0)
      + sizeof_type ti "flags_metadata_t".
Proof.
  intros HD Hal. eexists _, _, _.
  split; [by apply exported_header|].
  split; [by apply exported_footer|].
  split; [by apply exported_metadata|].
  unfold sizeof_typedef. simpl td_su. cbv iota.
  rewrite !sizeof_union_packed, sizeof_struct_packed by done.
  split; [|split].
  - simpl. unfold sizeof_field. simpl. lia.
  - simpl. unfold sizeof_field. simpl. lia.
  - unfold struct_message_metadata, metadata_composition, when.
    destruct (bool_decide (LOW_POWER_LISTENING ∈ _)),
      (bool_decide (PACKET_LINK ∈ _)); cbn [td_body app];
      rewrite !fmap_cons, fmap_nil, sizeof_metadata_union_packed by done;
      simpl; unfold sizeof_field; simpl; lia.
Qed.

Lemma X11_packed_sizes_witness :
  (PLATFORM_MESSAGE_H ∉ ({[PACKET_LINK]} : gset ident)) ∧
  (∀ ty, ti_align_log2 (packed_types ty) = 0) ∧
  ∃ md,
    exported inc_none {[PACKET_LINK]} "message_metadata_t" = Some md ∧
    sizeof_typedef packed_types md = 3 + 0 + 4 + 4 + 1.
Proof.
  split; [by_evaluation|]. split; [reflexivity|].
  destruct (X11_packed_sizes inc_none packed_types {[PACKET_LINK]})
    as (hdr & ftr & md & _ & _ & H1 & _ & _ & H2);
    [by_evaluation | reflexivity |].
  exists md. split; [exact H1 | exact H2].
Defined.
